(** * Life-insurance policy canister (src/src/index.ts)

    A shallow embedding of the Azle canister that stores life-insurance
    policies in a [StableBTreeMap<string, LifeInsurancePolicy>] and exposes
    six entry points: [createInsurancePolicy], [getInsurancePolicy],
    [getAllInsurancePolicies], [updateInsurancePolicy],
    [deleteInsurancePolicy] and [fileClaim].

    - The stable map is a [gmap string Policy.t]; every entry point takes the
      store and returns its result together with the new store.
    - The ambient [ic] context of one message (the caller, [ic.time()], and
      the [uuidv4()] value drawn by the message) is an explicit [Env].
    - JavaScript [number] is a binary64 float ([PrimFloat.float]); [nat64] is
      [N]. *)

From Stdlib Require Import Floats.
From stdpp Require Import base gmap strings list.

(** ** Data model *)

(** A [Principal] is an instance of the Principal class of the IC agent
    library: a JavaScript object. [===] on two principals compares object
    identity, so we carry the object reference next to its textual form. *)
Record Principal := mkPrincipal {
  principal_ref : positive;
  principal_text : string
}.

(** [typeof p] of a Principal object is ["object"]; an object is truthy. *)
Definition typeof_principal (_ : Principal) : string := "object".
Definition truthy_principal (_ : Principal) : bool := true.

(** [===] on objects: reference identity. *)
Definition principal_strict_eq (p q : Principal) : bool :=
  Pos.eqb (principal_ref p) (principal_ref q).

Module Policy.
(** [type LifeInsurancePolicy = Record<{...}>] *)
Record t := mk {
  id : string;
  policyHolder : Principal;
  coverageAmount : float;
  premiumAmount : float;
  policyStartDate : N;
  policyEndDate : N;
  isClaimed : bool;
  createdAt : N;
  updatedAt : option N
}.
End Policy.

Module Payload.
(** [type LifeInsurancePolicyPayload = Record<{...}>], as the JavaScript
    object the entry point receives: a field is [None] when the object has
    no such property ([!(field in payload)]). *)
Record t := mk {
  policyHolder : option Principal;
  coverageAmount : option float;
  premiumAmount : option float;
  policyStartDate : option N;
  policyEndDate : option N;
  isClaimed : option bool
}.

(** The payload object with every declared property present. *)
Definition full (p : t) : Prop :=
  is_Some (policyHolder p) /\ is_Some (coverageAmount p) /\
  is_Some (premiumAmount p) /\ is_Some (policyStartDate p) /\
  is_Some (policyEndDate p) /\ is_Some (isClaimed p).
End Payload.

(** [Result<T, string>] of Azle. *)
Inductive Result (T : Type) :=
| Ok (v : T)
| Err (e : string).
Arguments Ok {T} v.
Arguments Err {T} e.

(** [insurancePolicyStorage] *)
Abbreviation Store := (gmap string Policy.t).

(** The [ic] context of one message. *)
Record Env := mkEnv {
  caller : Principal;   (* ic.caller() *)
  time : N;             (* ic.time(), constant during one message *)
  uuid : string         (* the value uuidv4() returns in this message *)
}.

(** ** Messages *)

Definition msg_invalid_id : string := "Invalid ID format.".
Definition msg_invalid_create_payload : string :=
  "Invalid payload for creating an insurance policy.".
Definition msg_invalid_update_payload : string :=
  "Invalid payload for updating an insurance policy.".
Definition msg_invalid_user : string := "Invalid current user ID.".
Definition msg_missing (field : string) : string :=
  String.append "Missing required field: " (String.append field ".").
Definition msg_not_found (id : string) : string :=
  String.append "Insurance Policy with ID=" (String.append id " not found.").
Definition msg_already_claimed (id : string) : string :=
  String.append "Claim for Insurance Policy with ID="
    (String.append id " has already been filed.").

(** ** Validation helpers *)

(** [!id || typeof id !== "string"] for an [id : string]. *)
Definition invalid_id (id : string) : bool := String.eqb id "".

Definition requiredFields : list string :=
  ["policyHolder"; "coverageAmount"; "premiumAmount"; "policyStartDate";
   "policyEndDate"; "isClaimed"].

(** [field in payload] *)
Definition has_field (p : Payload.t) (field : string) : bool :=
  if String.eqb field "policyHolder" then bool_decide (is_Some (Payload.policyHolder p))
  else if String.eqb field "coverageAmount" then bool_decide (is_Some (Payload.coverageAmount p))
  else if String.eqb field "premiumAmount" then bool_decide (is_Some (Payload.premiumAmount p))
  else if String.eqb field "policyStartDate" then bool_decide (is_Some (Payload.policyStartDate p))
  else if String.eqb field "policyEndDate" then bool_decide (is_Some (Payload.policyEndDate p))
  else if String.eqb field "isClaimed" then bool_decide (is_Some (Payload.isClaimed p))
  else false.

(** [for (const field of requiredFields) if (!(field in payload)) return ...]:
    the first required field the payload lacks. *)
Fixpoint first_missing (fields : list string) (p : Payload.t) : option string :=
  match fields with
  | [] => None
  | f :: fs => if has_field p f then first_missing fs p else Some f
  end.

(** ** Entry points *)

(** [createInsurancePolicy(payload)]; [None] stands for a falsy or non-object
    payload. The object literal [{id: uuidv4(), createdAt: ic.time(),
    updatedAt: Opt.None, ...payload}] takes every payload field. *)
Definition createInsurancePolicy (e : Env) (payload : option Payload.t) (s : Store)
    : Result Policy.t * Store :=
  match payload with
  | None => (Err msg_invalid_create_payload, s)
  | Some p =>
      match first_missing requiredFields p with
      | Some f => (Err (msg_missing f), s)
      | None =>
          match Payload.policyHolder p, Payload.coverageAmount p,
                Payload.premiumAmount p, Payload.policyStartDate p,
                Payload.policyEndDate p, Payload.isClaimed p with
          | Some ph, Some ca, Some pa, Some sd, Some ed, Some ic =>
              let insurancePolicy :=
                {| Policy.id := uuid e; Policy.createdAt := time e;
                   Policy.updatedAt := None;
                   Policy.policyHolder := ph; Policy.coverageAmount := ca;
                   Policy.premiumAmount := pa; Policy.policyStartDate := sd;
                   Policy.policyEndDate := ed; Policy.isClaimed := ic |} in
              (Ok insurancePolicy,
               <[Policy.id insurancePolicy := insurancePolicy]> s)
          | _, _, _, _, _, _ => (Err msg_invalid_create_payload, s) (* not reached *)
          end
      end
  end.

(** [getInsurancePolicy(id)] *)
Definition getInsurancePolicy (e : Env) (id : string) (s : Store)
    : Result Policy.t * Store :=
  if invalid_id id then (Err msg_invalid_id, s)
  else match s !! id with
       | Some policy => (Ok policy, s)
       | None => (Err (msg_not_found id), s)
       end.

(** [insurancePolicyStorage.values()] *)
Definition storage_values (s : Store) : list Policy.t := (map_to_list s).*2.

(** [getAllInsurancePolicies()] *)
Definition getAllInsurancePolicies (e : Env) (s : Store)
    : Result (list Policy.t) * Store :=
  let currentUserId := caller e in
  if negb (truthy_principal currentUserId)
     || negb (String.eqb (typeof_principal currentUserId) "string")
  then (Err msg_invalid_user, s)
  else (Ok (filter (fun policy =>
                      principal_strict_eq (Policy.policyHolder policy) currentUserId = true)
                   (storage_values s)), s).

(** [{...existingPolicy, ...payload, updatedAt: Opt.Some(ic.time())}]: every
    property the payload object has overrides the existing one. *)
Definition spread_update (existing : Policy.t) (p : Payload.t) (now : N) : Policy.t :=
  {| Policy.id := Policy.id existing;
     Policy.policyHolder := default (Policy.policyHolder existing) (Payload.policyHolder p);
     Policy.coverageAmount := default (Policy.coverageAmount existing) (Payload.coverageAmount p);
     Policy.premiumAmount := default (Policy.premiumAmount existing) (Payload.premiumAmount p);
     Policy.policyStartDate := default (Policy.policyStartDate existing) (Payload.policyStartDate p);
     Policy.policyEndDate := default (Policy.policyEndDate existing) (Payload.policyEndDate p);
     Policy.isClaimed := default (Policy.isClaimed existing) (Payload.isClaimed p);
     Policy.createdAt := Policy.createdAt existing;
     Policy.updatedAt := Some now |}.

(** [updateInsurancePolicy(id, payload)] *)
Definition updateInsurancePolicy (e : Env) (id : string) (payload : option Payload.t)
    (s : Store) : Result Policy.t * Store :=
  if invalid_id id then (Err msg_invalid_id, s)
  else match payload with
  | None => (Err msg_invalid_update_payload, s)
  | Some p =>
      match first_missing requiredFields p with
      | Some f => (Err (msg_missing f), s)
      | None =>
          match s !! id with
          | Some existingPolicy =>
              let updatedPolicy := spread_update existingPolicy p (time e) in
              (Ok updatedPolicy, <[Policy.id updatedPolicy := updatedPolicy]> s)
          | None => (Err (msg_not_found id), s)
          end
      end
  end.

(** [deleteInsurancePolicy(id)] *)
Definition deleteInsurancePolicy (e : Env) (id : string) (s : Store)
    : Result Policy.t * Store :=
  if invalid_id id then (Err msg_invalid_id, s)
  else match s !! id with
       | Some existingPolicy => (Ok existingPolicy, delete id s)
       | None => (Err (msg_not_found id), s)
       end.

(** [{...policy, isClaimed: true, updatedAt: Opt.Some(ic.time())}] *)
Definition claimed_policy (policy : Policy.t) (now : N) : Policy.t :=
  {| Policy.id := Policy.id policy;
     Policy.policyHolder := Policy.policyHolder policy;
     Policy.coverageAmount := Policy.coverageAmount policy;
     Policy.premiumAmount := Policy.premiumAmount policy;
     Policy.policyStartDate := Policy.policyStartDate policy;
     Policy.policyEndDate := Policy.policyEndDate policy;
     Policy.isClaimed := true;
     Policy.createdAt := Policy.createdAt policy;
     Policy.updatedAt := Some now |}.

(** [fileClaim(id)] *)
Definition fileClaim (e : Env) (id : string) (s : Store) : Result Policy.t * Store :=
  if invalid_id id then (Err msg_invalid_id, s)
  else match s !! id with
       | Some policy =>
           if Policy.isClaimed policy then (Err (msg_already_claimed id), s)
           else let updatedPolicy := claimed_policy policy (time e) in
                (Ok updatedPolicy, <[Policy.id updatedPolicy := updatedPolicy]> s)
       | None => (Err (msg_not_found id), s)
       end.

(** ** The canister as a state machine *)

(** One message to the canister. *)
Inductive Call :=
| CreateInsurancePolicy (payload : option Payload.t)
| GetInsurancePolicy (id : string)
| GetAllInsurancePolicies
| UpdateInsurancePolicy (id : string) (payload : option Payload.t)
| DeleteInsurancePolicy (id : string)
| FileClaim (id : string).

Inductive Reply :=
| ReplyPolicy (r : Result Policy.t)
| ReplyPolicies (r : Result (list Policy.t)).

Definition run_call (e : Env) (c : Call) (s : Store) : Reply * Store :=
  match c with
  | CreateInsurancePolicy p => let '(r, s') := createInsurancePolicy e p s in (ReplyPolicy r, s')
  | GetInsurancePolicy id => let '(r, s') := getInsurancePolicy e id s in (ReplyPolicy r, s')
  | GetAllInsurancePolicies => let '(r, s') := getAllInsurancePolicies e s in (ReplyPolicies r, s')
  | UpdateInsurancePolicy id p =>
      let '(r, s') := updateInsurancePolicy e id p s in (ReplyPolicy r, s')
  | DeleteInsurancePolicy id => let '(r, s') := deleteInsurancePolicy e id s in (ReplyPolicy r, s')
  | FileClaim id => let '(r, s') := fileClaim e id s in (ReplyPolicy r, s')
  end.

Definition is_ok {T} (r : Result T) : bool :=
  match r with Ok _ => true | Err _ => false end.

Definition reply_failed (r : Reply) : bool :=
  match r with
  | ReplyPolicy r => negb (is_ok r)
  | ReplyPolicies r => negb (is_ok r)
  end.

(** The contract of the host for one message: [ic.time()] never goes back
    (the previous message ran at [t]), and [uuidv4()] returns a fresh
    36-character identifier. *)
Definition env_ok (s : Store) (t : N) (e : Env) : Prop :=
  (t <= time e)%N /\ String.length (uuid e) = 36 /\ s !! uuid e = None.

(** Stores the canister can be in: the empty stable map, then any sequence
    of messages; [t] is the time of the last message. *)
Inductive reachable : Store -> N -> Prop :=
| reachable_init t : reachable ∅ t
| reachable_step s t e c rep s' :
    reachable s t -> env_ok s t e -> run_call e c s = (rep, s') ->
    reachable s' (time e).

(** The store invariant: each record sits under its own non-empty [id], and
    its timestamps are not later than the last message. *)
Definition stored_ok (t : N) (s : Store) : Prop :=
  forall k r, s !! k = Some r ->
    Policy.id r = k /\ k <> "" /\ (Policy.createdAt r <= t)%N /\
    (forall u, Policy.updatedAt r = Some u -> (u <= t)%N).

(** The entry of the store a message may write: the new [uuidv4()] id for
    [createInsurancePolicy], the argument id for [updateInsurancePolicy],
    [deleteInsurancePolicy] and [fileClaim], none for the two queries. *)
Definition call_key (e : Env) (c : Call) : option string :=
  match c with
  | CreateInsurancePolicy _ => Some (uuid e)
  | GetInsurancePolicy _ | GetAllInsurancePolicies => None
  | UpdateInsurancePolicy id _ | DeleteInsurancePolicy id | FileClaim id => Some id
  end.

(** ** Concrete inputs *)

Definition alice : Principal := mkPrincipal 1 "2vxsx-fae".
Definition bob : Principal := mkPrincipal 2 "aaaaa-aa".
Definition uid1 : string := "123e4567-e89b-12d3-a456-426614174000".
Definition uid2 : string := "9b2f0c4e-7d1a-4f3b-8c5e-2a6d9e1f0b7c".
Definition env_at (who : Principal) (now : N) (u : string) : Env := mkEnv who now u.

(** The scenario payload of the spec: coverage 100000, premium 500, dates
    1000 and 2000, not claimed. *)
Definition payload_of (claimed : bool) : Payload.t :=
  {| Payload.policyHolder := Some alice;
     Payload.coverageAmount := Some 100000%float;
     Payload.premiumAmount := Some 500%float;
     Payload.policyStartDate := Some 1000%N;
     Payload.policyEndDate := Some 2000%N;
     Payload.isClaimed := Some claimed |}.

(** A payload object without [premiumAmount] and [policyEndDate]. *)
Definition payload_partial : Payload.t :=
  {| Payload.policyHolder := Some alice;
     Payload.coverageAmount := Some 100000%float;
     Payload.premiumAmount := None;
     Payload.policyStartDate := Some 1000%N;
     Payload.policyEndDate := None;
     Payload.isClaimed := Some false |}.

(** Alice's policy after [createInsurancePolicy] at time 10, then
    [fileClaim] at time 20. *)
Definition store_created : Store :=
  snd (createInsurancePolicy (env_at alice 10 uid1) (Some (payload_of false)) ∅).
Definition store_claimed : Store :=
  snd (fileClaim (env_at alice 20 uid2) uid1 store_created).

(** ** The earlier version of the canister (src/unnamed/part_001)

    The same six entry points without any validation of ids, payloads or the
    caller. Its payload is the Candid-decoded record, every field present. *)
Module Legacy.

Record LifeInsurancePolicyPayload := mkPayload {
  policyHolder : Principal;
  coverageAmount : float;
  premiumAmount : float;
  policyStartDate : N;
  policyEndDate : N;
  isClaimed : bool
}.

(** The same payload as the JavaScript object the current version receives. *)
Definition as_object (p : LifeInsurancePolicyPayload) : Payload.t :=
  {| Payload.policyHolder := Some (policyHolder p);
     Payload.coverageAmount := Some (coverageAmount p);
     Payload.premiumAmount := Some (premiumAmount p);
     Payload.policyStartDate := Some (policyStartDate p);
     Payload.policyEndDate := Some (policyEndDate p);
     Payload.isClaimed := Some (isClaimed p) |}.

(** [createInsurancePolicy(payload)] *)
Definition createInsurancePolicy (e : Env) (payload : LifeInsurancePolicyPayload)
    (s : Store) : Result Policy.t * Store :=
  let insurancePolicy :=
    {| Policy.id := uuid e; Policy.createdAt := time e; Policy.updatedAt := None;
       Policy.policyHolder := policyHolder payload;
       Policy.coverageAmount := coverageAmount payload;
       Policy.premiumAmount := premiumAmount payload;
       Policy.policyStartDate := policyStartDate payload;
       Policy.policyEndDate := policyEndDate payload;
       Policy.isClaimed := isClaimed payload |} in
  (Ok insurancePolicy, <[Policy.id insurancePolicy := insurancePolicy]> s).

(** [getInsurancePolicy(id)] *)
Definition getInsurancePolicy (e : Env) (id : string) (s : Store)
    : Result Policy.t * Store :=
  match s !! id with
  | Some policy => (Ok policy, s)
  | None => (Err (msg_not_found id), s)
  end.

(** [ic.caller()] decodes the caller's bytes into a new Principal object;
    [values()] decodes every stored record anew, its [policyHolder] included.
    The objects a message allocates are numbered from [next] on: the caller
    first, then one per record in the order [values()] returns them. *)
Definition caller_object (e : Env) (next : positive) : Principal :=
  mkPrincipal next (principal_text (caller e)).

Definition rehydrate (next : positive) (r : Policy.t) : Policy.t :=
  {| Policy.id := Policy.id r;
     Policy.policyHolder := mkPrincipal next (principal_text (Policy.policyHolder r));
     Policy.coverageAmount := Policy.coverageAmount r;
     Policy.premiumAmount := Policy.premiumAmount r;
     Policy.policyStartDate := Policy.policyStartDate r;
     Policy.policyEndDate := Policy.policyEndDate r;
     Policy.isClaimed := Policy.isClaimed r;
     Policy.createdAt := Policy.createdAt r;
     Policy.updatedAt := Policy.updatedAt r |}.

Fixpoint deserialize_values (next : positive) (l : list Policy.t) : list Policy.t :=
  match l with
  | [] => []
  | r :: l' => rehydrate next r :: deserialize_values (Pos.succ next) l'
  end.

(** [getAllInsurancePolicies()], with the message's objects numbered from
    [next]. *)
Definition getAllInsurancePolicies_at (next : positive) (e : Env) (s : Store)
    : Result (list Policy.t) * Store :=
  let currentUserId := caller_object e next in
  (Ok (filter (fun policy =>
                 principal_strict_eq (Policy.policyHolder policy) currentUserId = true)
              (deserialize_values (Pos.succ next) (storage_values s))), s).

(** [getAllInsurancePolicies()] *)
Definition getAllInsurancePolicies (e : Env) (s : Store)
    : Result (list Policy.t) * Store :=
  getAllInsurancePolicies_at 1 e s.

(** [updateInsurancePolicy(id, payload)] *)
Definition updateInsurancePolicy (e : Env) (id : string)
    (payload : LifeInsurancePolicyPayload) (s : Store) : Result Policy.t * Store :=
  match s !! id with
  | Some existingPolicy =>
      let updatedPolicy :=
        {| Policy.id := Policy.id existingPolicy;
           Policy.policyHolder := policyHolder payload;
           Policy.coverageAmount := coverageAmount payload;
           Policy.premiumAmount := premiumAmount payload;
           Policy.policyStartDate := policyStartDate payload;
           Policy.policyEndDate := policyEndDate payload;
           Policy.isClaimed := isClaimed payload;
           Policy.createdAt := Policy.createdAt existingPolicy;
           Policy.updatedAt := Some (time e) |} in
      (Ok updatedPolicy, <[Policy.id updatedPolicy := updatedPolicy]> s)
  | None => (Err (msg_not_found id), s)
  end.

(** [deleteInsurancePolicy(id)] *)
Definition deleteInsurancePolicy (e : Env) (id : string) (s : Store)
    : Result Policy.t * Store :=
  match s !! id with
  | Some existingPolicy => (Ok existingPolicy, delete id s)
  | None => (Err (msg_not_found id), s)
  end.

(** [fileClaim(id)] *)
Definition fileClaim (e : Env) (id : string) (s : Store) : Result Policy.t * Store :=
  match s !! id with
  | Some policy =>
      if negb (Policy.isClaimed policy) then
        let updatedPolicy := claimed_policy policy (time e) in
        (Ok updatedPolicy, <[Policy.id updatedPolicy := updatedPolicy]> s)
      else (Err (msg_already_claimed id), s)
  | None => (Err (msg_not_found id), s)
  end.

Inductive Call :=
| CreateInsurancePolicy (payload : LifeInsurancePolicyPayload)
| GetInsurancePolicy (id : string)
| GetAllInsurancePolicies
| UpdateInsurancePolicy (id : string) (payload : LifeInsurancePolicyPayload)
| DeleteInsurancePolicy (id : string)
| FileClaim (id : string).

Definition run_call (e : Env) (c : Call) (s : Store) : Reply * Store :=
  match c with
  | CreateInsurancePolicy p => let '(r, s') := createInsurancePolicy e p s in (ReplyPolicy r, s')
  | GetInsurancePolicy id => let '(r, s') := getInsurancePolicy e id s in (ReplyPolicy r, s')
  | GetAllInsurancePolicies => let '(r, s') := getAllInsurancePolicies e s in (ReplyPolicies r, s')
  | UpdateInsurancePolicy id p =>
      let '(r, s') := updateInsurancePolicy e id p s in (ReplyPolicy r, s')
  | DeleteInsurancePolicy id => let '(r, s') := deleteInsurancePolicy e id s in (ReplyPolicy r, s')
  | FileClaim id => let '(r, s') := fileClaim e id s in (ReplyPolicy r, s')
  end.

End Legacy.

(** The scenario payload, as the earlier version receives it. *)
Definition legacy_payload_of (claimed : bool) : Legacy.LifeInsurancePolicyPayload :=
  Legacy.mkPayload alice 100000 500 1000 2000 claimed.

(** The record [store_claimed] holds under [uid1]. *)
Definition policy_alice_claimed : Policy.t :=
  Policy.mk uid1 alice 100000 500 1000 2000 true 10 (Some 20%N).

(** ** Invariant of reachable stores *)

Lemma first_missing_none_full (p : Payload.t) :
  first_missing requiredFields p = None -> Payload.full p.
Proof.
  destruct p as [[] [] [] [] [] []]; cbv; intros H;
    try discriminate; repeat split; eexists; reflexivity.
Qed.

Lemma full_first_missing_none (p : Payload.t) :
  Payload.full p -> first_missing requiredFields p = None.
Proof.
  intros (H1 & H2 & H3 & H4 & H5 & H6).
  destruct p as [[] [] [] [] [] []]; simpl in *; try reflexivity;
    exfalso; repeat match goal with H : is_Some None |- _ => by apply is_Some_None in H end.
Qed.

Lemma invalid_id_false (id : string) : invalid_id id = false -> id <> "".
Proof. unfold invalid_id. apply String.eqb_neq. Qed.

Lemma invalid_id_nonempty (id : string) : id <> "" -> invalid_id id = false.
Proof. unfold invalid_id. apply String.eqb_neq. Qed.

(** Outcomes of each entry point: a failure leaves the store as it was. *)

Lemma createInsurancePolicy_cases e p s r s' :
  createInsurancePolicy e p s = (r, s') ->
  (exists msg, r = Err msg /\ s' = s) \/
  (exists pol, r = Ok pol /\ s' = <[Policy.id pol := pol]> s /\
     Policy.id pol = uuid e /\ Policy.createdAt pol = time e /\
     Policy.updatedAt pol = None).
Proof.
  unfold createInsurancePolicy. intros H.
  repeat case_match; simplify_eq; eauto 10.
Qed.

Lemma getInsurancePolicy_cases e id s r s' :
  getInsurancePolicy e id s = (r, s') -> s' = s.
Proof. unfold getInsurancePolicy. intros H. repeat case_match; by simplify_eq. Qed.

Lemma getAllInsurancePolicies_cases e s r s' :
  getAllInsurancePolicies e s = (r, s') -> s' = s.
Proof. unfold getAllInsurancePolicies. intros H. repeat case_match; by simplify_eq. Qed.

Lemma updateInsurancePolicy_cases e id p s r s' :
  updateInsurancePolicy e id p s = (r, s') ->
  (exists msg, r = Err msg /\ s' = s) \/
  (exists pl existing, id <> "" /\ p = Some pl /\
     first_missing requiredFields pl = None /\ s !! id = Some existing /\
     r = Ok (spread_update existing pl (time e)) /\
     s' = <[Policy.id existing := spread_update existing pl (time e)]> s).
Proof.
  unfold updateInsurancePolicy. intros H.
  repeat case_match; simplify_eq; eauto.
  right. do 2 eexists. split; [by apply invalid_id_false|]. eauto.
Qed.

Lemma deleteInsurancePolicy_cases e id s r s' :
  deleteInsurancePolicy e id s = (r, s') ->
  (exists msg, r = Err msg /\ s' = s) \/
  (exists existing, id <> "" /\ s !! id = Some existing /\
     r = Ok existing /\ s' = delete id s).
Proof.
  unfold deleteInsurancePolicy. intros H.
  repeat case_match; simplify_eq; eauto.
  right. eexists. split; [by apply invalid_id_false|]. eauto.
Qed.

Lemma fileClaim_cases e id s r s' :
  fileClaim e id s = (r, s') ->
  (exists msg, r = Err msg /\ s' = s) \/
  (exists policy, id <> "" /\ s !! id = Some policy /\
     Policy.isClaimed policy = false /\
     r = Ok (claimed_policy policy (time e)) /\
     s' = <[Policy.id policy := claimed_policy policy (time e)]> s).
Proof.
  unfold fileClaim. intros H.
  repeat case_match; simplify_eq; eauto.
  right. eexists. split; [by apply invalid_id_false|]. eauto.
Qed.

Lemma run_call_failed_unchanged e c s rep s' :
  run_call e c s = (rep, s') -> reply_failed rep = true -> s' = s.
Proof.
  destruct c; unfold run_call; intros H Hf; case_match; simplify_eq.
  - edestruct createInsurancePolicy_cases as [(?&?&?)|(?&?&?)]; [eassumption|..];
      simplify_eq/=; done.
  - eauto using getInsurancePolicy_cases.
  - eauto using getAllInsurancePolicies_cases.
  - edestruct updateInsurancePolicy_cases as [(?&?&?)|(?&?&?&?&?&?&?&?)];
      [eassumption|..]; simplify_eq/=; done.
  - edestruct deleteInsurancePolicy_cases as [(?&?&?)|(?&?&?&?&?)];
      [eassumption|..]; simplify_eq/=; done.
  - edestruct fileClaim_cases as [(?&?&?)|(?&?&?&?&?&?)];
      [eassumption|..]; simplify_eq/=; done.
Qed.

Lemma stored_ok_mono t t' s : stored_ok t s -> (t <= t')%N -> stored_ok t' s.
Proof.
  intros Hs Ht k r Hk. destruct (Hs k r Hk) as (? & ? & ? & Hu).
  repeat split; auto; [lia|]. intros u Hu'. specialize (Hu u Hu'). lia.
Qed.

Lemma stored_ok_insert t s k r :
  stored_ok t s -> Policy.id r = k -> k <> "" -> (Policy.createdAt r <= t)%N ->
  (forall u, Policy.updatedAt r = Some u -> (u <= t)%N) ->
  stored_ok t (<[k := r]> s).
Proof.
  intros Hs Hid Hne Hc Hu j q Hj. apply lookup_insert_Some in Hj.
  destruct Hj as [[<- <-]|[_ Hj]]; [auto | by apply Hs].
Qed.

Lemma stored_ok_delete t s k : stored_ok t s -> stored_ok t (delete k s).
Proof.
  intros Hs j q Hj. apply lookup_delete_Some in Hj. destruct Hj as [_ Hj]. by apply Hs.
Qed.

Lemma stored_ok_step t s e c rep s' :
  stored_ok t s -> (t <= time e)%N -> uuid e <> "" ->
  run_call e c s = (rep, s') -> stored_ok (time e) s'.
Proof.
  intros Hs Ht Hu H.
  assert (Hs' : stored_ok (time e) s) by (eapply stored_ok_mono; eauto).
  destruct c; unfold run_call in H; case_match; simplify_eq.
  - edestruct createInsurancePolicy_cases as [(?&?&?)|(pol&?&?&Hid&Hc&Hn)];
      [eassumption|..]; simplify_eq; [done|].
    apply stored_ok_insert; auto; [rewrite Hid; done | lia | rewrite Hn; done].
  - by erewrite getInsurancePolicy_cases by eassumption.
  - by erewrite getAllInsurancePolicies_cases by eassumption.
  - edestruct updateInsurancePolicy_cases as [(?&?&?)|(pl&ex&Hne&?&?&Hex&?&?)];
      [eassumption|..]; simplify_eq; [done|].
    destruct (Hs' _ _ Hex) as (Hid & _ & Hc & _).
    apply stored_ok_insert; simpl; auto; [rewrite Hid; done | intros u [= <-]; lia].
  - edestruct deleteInsurancePolicy_cases as [(?&?&?)|(ex&?&?&?&?)];
      [eassumption|..]; simplify_eq; [done|]. by apply stored_ok_delete.
  - edestruct fileClaim_cases as [(?&?&?)|(pol&Hne&Hex&?&?&?)];
      [eassumption|..]; simplify_eq; [done|].
    destruct (Hs' _ _ Hex) as (Hid & _ & Hc & _).
    apply stored_ok_insert; simpl; auto; [rewrite Hid; done | intros u [= <-]; lia].
Qed.

Lemma uuid36_nonempty (u : string) : String.length u = 36 -> u <> "".
Proof. intros H ->. discriminate. Qed.

Lemma reachable_stored_ok s t : reachable s t -> stored_ok t s.
Proof.
  induction 1 as [t|s t e c rep s' _ IH (Ht & Hl & _) Hrun].
  - intros k r Hk. by rewrite lookup_empty in Hk.
  - eapply stored_ok_step; eauto using uuid36_nonempty.
Qed.

(** Building reachable stores message by message. *)
Lemma reachable_run s t e c :
  reachable s t -> env_ok s t e -> reachable (snd (run_call e c s)) (time e).
Proof.
  intros Hr He. destruct (run_call e c s) as [rep s'] eqn:E.
  eapply reachable_step; eauto.
Qed.

Lemma store_created_reachable : reachable store_created 10.
Proof.
  change store_created with
    (snd (run_call (env_at alice 10 uid1) (CreateInsurancePolicy (Some (payload_of false))) ∅)).
  apply reachable_run with (t := 0%N); [constructor|].
  split; [simpl; lia|]. split; reflexivity.
Qed.

Lemma store_claimed_reachable : reachable store_claimed 20.
Proof.
  change store_claimed with
    (snd (run_call (env_at alice 20 uid2) (FileClaim uid1) store_created)).
  apply reachable_run with (t := 10%N); [apply store_created_reachable|].
  split; [simpl; lia|]. split; reflexivity.
Qed.

(** ** Claims *)

(** C1 (as stated, refuted): from the empty store, Alice's policy is
    created and claimed, so it is stored with [isClaimed = true]; a
    successful [updateInsurancePolicy] with the full payload
    [isClaimed: false] then stores and returns it with [isClaimed = false]. *)
Lemma fileClaim_then_update_unclaims :
  reachable store_claimed 20 /\
  Policy.isClaimed <$> store_claimed !! uid1 = Some true /\
  exists r',
    updateInsurancePolicy (env_at bob 30 uid2) uid1 (Some (payload_of false)) store_claimed
      = (Ok r', <[uid1 := r']> store_claimed) /\
    Policy.isClaimed r' = false /\
    Policy.isClaimed <$> (<[uid1 := r']> store_claimed) !! uid1 = Some false.
Proof.
  split; [apply store_claimed_reachable|]. split; [reflexivity|].
  eexists. split; [reflexivity|]. split; reflexivity.
Qed.

Lemma payload_of_full (b : bool) : Payload.full (payload_of b).
Proof. repeat split; eexists; reflexivity. Qed.

Lemma isClaimed_reset_step s t e c rep s' k r r' :
  reachable s t -> env_ok s t e -> run_call e c s = (rep, s') ->
  s !! k = Some r -> Policy.isClaimed r = true ->
  s' !! k = Some r' -> Policy.isClaimed r' = false ->
  exists p, c = UpdateInsurancePolicy k (Some p) /\ Payload.isClaimed p = Some false.
Proof.
  intros Hr (_ & _ & Hfresh) H Hk Hc Hk' Hc'.
  pose proof (reachable_stored_ok _ _ Hr) as Hs.
  destruct c; unfold run_call in H; case_match; simplify_eq.
  - edestruct createInsurancePolicy_cases as [(?&?&?)|(pol&?&?&Hid&_&_)];
      [eassumption|..]; simplify_eq; [congruence|].
    apply lookup_insert_Some in Hk' as [[Heq _]|[_ Hk']]; [|congruence].
    rewrite Hid in Heq. subst. congruence.
  - match goal with Hg : getInsurancePolicy _ _ _ = _ |- _ =>
      apply getInsurancePolicy_cases in Hg end. subst. congruence.
  - match goal with Hg : getAllInsurancePolicies _ _ = _ |- _ =>
      apply getAllInsurancePolicies_cases in Hg end. subst. congruence.
  - edestruct updateInsurancePolicy_cases as [(?&?&?)|(pl&ex&Hne&?&?&Hex&?&?)];
      [eassumption|..]; simplify_eq; [congruence|].
    destruct (Hs _ _ Hex) as (Hid & _).
    apply lookup_insert_Some in Hk' as [[Heq <-]|[_ Hk']]; [|congruence].
    rewrite Hid in Heq. subst k. rewrite Hex in Hk. simplify_eq.
    eexists; split; [done|]. simpl in Hc'.
    destruct (Payload.isClaimed pl) as [b|]; simpl in Hc'; congruence.
  - edestruct deleteInsurancePolicy_cases as [(?&?&?)|(ex&?&?&?&?)];
      [eassumption|..]; simplify_eq; [congruence|].
    apply lookup_delete_Some in Hk' as [_ Hk']. congruence.
  - edestruct fileClaim_cases as [(?&?&?)|(pol&Hne&Hex&?&?&?)];
      [eassumption|..]; simplify_eq; [congruence|].
    apply lookup_insert_Some in Hk' as [[_ <-]|[_ Hk']]; [done|congruence].
Qed.

(** C1 (amended): in a reachable store, for a message whose [ic.time()]
    is not earlier than the last one and whose [uuidv4()] value is fresh:
    [fileClaim] rejects a claimed record with the already-filed conflict and
    leaves the store unchanged; a successful [fileClaim] turns an unclaimed
    record into a claimed one; a successful [updateInsurancePolicy] stores
    under [id] a record whose [isClaimed] is the payload's; [updateInsurancePolicy] with a complete payload
    carrying [isClaimed: false] succeeds on every present id and stores the
    record with [isClaimed = false], also when it was claimed; and a message
    turns the [isClaimed] of a stored record from [true] to [false] only if
    it is such an update on that very id: [createInsurancePolicy],
    [getInsurancePolicy], [getAllInsurancePolicies], [deleteInsurancePolicy]
    and [fileClaim] never do. *)
Theorem isClaimed_true_to_false_only_by_update s t e :
  reachable s t -> env_ok s t e ->
  (forall id r, s !! id = Some r -> Policy.isClaimed r = true ->
     fileClaim e id s = (Err (msg_already_claimed id), s)) /\
  (forall id r r' s', s !! id = Some r -> fileClaim e id s = (Ok r', s') ->
     Policy.isClaimed r = false /\ Policy.isClaimed r' = true /\ s' !! id = Some r') /\
  (forall id p r' s', updateInsurancePolicy e id (Some p) s = (Ok r', s') ->
     Payload.isClaimed p = Some (Policy.isClaimed r') /\ s' !! id = Some r') /\
  (forall id r p, s !! id = Some r -> Payload.full p -> Payload.isClaimed p = Some false ->
     exists r', updateInsurancePolicy e id (Some p) s = (Ok r', <[id := r']> s) /\
                Policy.isClaimed r' = false) /\
  (forall c rep s' k r r', run_call e c s = (rep, s') ->
     s !! k = Some r -> Policy.isClaimed r = true ->
     s' !! k = Some r' -> Policy.isClaimed r' = false ->
     exists p, c = UpdateInsurancePolicy k (Some p) /\ Payload.isClaimed p = Some false).
Proof.
  intros Hr He. pose proof (reachable_stored_ok _ _ Hr) as Hs.
  split; [|split; [|split; [|split]]].
  - intros id r Hk Hc. destruct (Hs _ _ Hk) as (_ & Hne & _).
    unfold fileClaim. by rewrite (invalid_id_nonempty _ Hne), Hk, Hc.
  - intros id r r' s' Hk H. destruct (Hs _ _ Hk) as (Hid & Hne & _).
    unfold fileClaim in H. rewrite (invalid_id_nonempty _ Hne), Hk in H.
    destruct (Policy.isClaimed r) eqn:Hc; simplify_eq.
    split; [done|]. split; [done|]. simpl. by rewrite lookup_insert_eq.
  - intros id p r' s' H. unfold updateInsurancePolicy in H.
    destruct (invalid_id id) eqn:Hi; [done|].
    destruct (first_missing requiredFields p) eqn:Hm; [done|].
    destruct (s !! id) as [ex|] eqn:Hk; [|done].
    destruct (Hs _ _ Hk) as (Hid & _). simplify_eq.
    apply first_missing_none_full in Hm. destruct Hm as (_&_&_&_&_&[b Hb]).
    simpl. rewrite Hb. split; [done|]. by rewrite lookup_insert_eq.
  - intros id r p Hk Hp Hc. destruct (Hs _ _ Hk) as (Hid & Hne & _).
    unfold updateInsurancePolicy.
    rewrite (invalid_id_nonempty _ Hne), (full_first_missing_none _ Hp), Hk.
    eexists. split; [simpl; rewrite Hid; reflexivity|]. simpl. by rewrite Hc.
  - intros c rep s' k r r'. eapply isClaimed_reset_step; eauto.
Qed.

(** Witness: Alice's claimed policy, un-claimed by an update. *)
Lemma isClaimed_true_to_false_only_by_update_witness :
  exists r', updateInsurancePolicy (env_at bob 30 uid2) uid1 (Some (payload_of false))
               store_claimed = (Ok r', <[uid1 := r']> store_claimed) /\
             Policy.isClaimed r' = false.
Proof.
  destruct (isClaimed_true_to_false_only_by_update store_claimed 20 (env_at bob 30 uid2)
              store_claimed_reachable) as (_ & _ & _ & H & _).
  - split; [simpl; lia|]. split; reflexivity.
  - exact (H uid1 policy_alice_claimed (payload_of false) eq_refl
             (payload_of_full false) eq_refl).
Defined.

(** C2: [getAllInsurancePolicies] never succeeds. [ic.caller()] is a
    Principal object, so the guard [typeof currentUserId !== "string"] holds
    for every caller: for every store and every caller the call returns the
    failure ["Invalid current user ID."] (and leaves the store as it is),
    even when the store holds records whose [policyHolder] is the caller. *)
Theorem getAllInsurancePolicies_always_fails (e : Env) (s : Store) :
  getAllInsurancePolicies e s = (Err msg_invalid_user, s).
Proof. reflexivity. Qed.

(** C3: in a reachable store, for a non-empty [id] present: a claimed
    record makes [fileClaim] fail with the already-filed conflict and leaves
    the store unchanged; an unclaimed one is stored and returned with
    [isClaimed = true] and [updatedAt = ic.time()], under the same key; a
    second [fileClaim] on [id] (at any later message) then fails with the
    conflict and leaves the stored record, hence its [isClaimed] and
    [updatedAt], as the first call returned it. *)
Theorem fileClaim_once s t e id r :
  reachable s t -> id <> "" -> s !! id = Some r ->
  (Policy.isClaimed r = true ->
     fileClaim e id s = (Err (msg_already_claimed id), s)) /\
  (Policy.isClaimed r = false ->
     let r' := claimed_policy r (time e) in
     fileClaim e id s = (Ok r', <[id := r']> s) /\
     Policy.isClaimed r' = true /\ Policy.updatedAt r' = Some (time e) /\
     (<[id := r']> s) !! id = Some r' /\
     forall e2, fileClaim e2 id (<[id := r']> s) =
                (Err (msg_already_claimed id), <[id := r']> s)).
Proof.
  intros Hr Hne Hk. destruct (reachable_stored_ok _ _ Hr _ _ Hk) as (Hid & _).
  unfold fileClaim. rewrite (invalid_id_nonempty _ Hne), Hk. split.
  - intros ->. reflexivity.
  - intros Hc. simpl. rewrite Hc. repeat split.
    + by rewrite Hid.
    + by rewrite lookup_insert_eq.
    + intros e2. by rewrite lookup_insert_eq.
Qed.

(** Witness: Alice's claimed policy in [store_claimed]. *)
Lemma fileClaim_once_witness :
  fileClaim (env_at alice 30 uid2) uid1 store_claimed =
    (Err (msg_already_claimed uid1), store_claimed).
Proof.
  apply (fileClaim_once store_claimed 20 (env_at alice 30 uid2) uid1 policy_alice_claimed).
  - apply store_claimed_reachable.
  - discriminate.
  - reflexivity.
  - reflexivity.
Defined.

(** C10: in every reachable store each record is stored under its own
    [id]; [createInsurancePolicy], [updateInsurancePolicy] and [fileClaim]
    store the record they return under that record's [id], which for
    [updateInsurancePolicy] and [fileClaim] is the [id] they were called on. *)
Theorem records_keyed_by_own_id s t :
  reachable s t ->
  (forall k r, s !! k = Some r -> Policy.id r = k) /\
  (forall e p r s', createInsurancePolicy e p s = (Ok r, s') ->
     s' = <[Policy.id r := r]> s) /\
  (forall e id p r s', updateInsurancePolicy e id p s = (Ok r, s') ->
     Policy.id r = id /\ s' = <[Policy.id r := r]> s) /\
  (forall e id r s', fileClaim e id s = (Ok r, s') ->
     Policy.id r = id /\ s' = <[Policy.id r := r]> s).
Proof.
  intros Hr. pose proof (reachable_stored_ok _ _ Hr) as Hs.
  split; [intros k r Hk; by apply (Hs k r Hk)|].
  split; [|split].
  - intros e p r s' H.
    edestruct createInsurancePolicy_cases as [(?&?&?)|(pol&?&?&_)];
      [eassumption|..]; simplify_eq; done.
  - intros e id p r s' H.
    edestruct updateInsurancePolicy_cases as [(?&?&?)|(pl&ex&Hne&?&?&Hex&?&?)];
      [eassumption|..]; simplify_eq.
    destruct (Hs _ _ Hex) as (Hid & _). split; [exact Hid|done].
  - intros e id r s' H.
    edestruct fileClaim_cases as [(?&?&?)|(pol&Hne&Hex&?&?&?)];
      [eassumption|..]; simplify_eq.
    destruct (Hs _ _ Hex) as (Hid & _). split; [exact Hid|done].
Qed.

(** Witness: [store_claimed]. *)
Lemma records_keyed_by_own_id_witness : Policy.id policy_alice_claimed = uid1.
Proof.
  apply (proj1 (records_keyed_by_own_id store_claimed 20 store_claimed_reachable)).
  reflexivity.
Defined.

(** C4: in a reachable store, for a present [id] and a payload object
    carrying every declared field, whatever their values, at a message no
    earlier than the last one: [updateInsurancePolicy] overwrites the entry
    under [id] and returns the new record, which keeps [id] and [createdAt],
    has [updatedAt = ic.time()], and that time is not earlier than the old
    [createdAt] and [updatedAt]. *)
Theorem update_keeps_id_and_createdAt s t e id r p :
  reachable s t -> (t <= time e)%N -> s !! id = Some r -> Payload.full p ->
  let r' := spread_update r p (time e) in
  updateInsurancePolicy e id (Some p) s = (Ok r', <[id := r']> s) /\
  Policy.id r' = id /\ Policy.id r' = Policy.id r /\
  Policy.createdAt r' = Policy.createdAt r /\
  Policy.updatedAt r' = Some (time e) /\
  (Policy.createdAt r <= time e)%N /\
  (forall u, Policy.updatedAt r = Some u -> (u <= time e)%N).
Proof.
  intros Hr Ht Hk Hp. simpl.
  destruct (reachable_stored_ok _ _ Hr _ _ Hk) as (Hid & Hne & Hc & Hu).
  unfold updateInsurancePolicy.
  rewrite (invalid_id_nonempty _ Hne), (full_first_missing_none _ Hp), Hk.
  simpl. rewrite Hid. repeat split; auto; [lia|].
  intros u Hu'. specialize (Hu u Hu'). lia.
Qed.

(** Witness: Alice's claimed policy updated at time 30. *)
Lemma update_keeps_id_and_createdAt_witness :
  Policy.createdAt (spread_update policy_alice_claimed (payload_of true) 30) =
  Policy.createdAt policy_alice_claimed.
Proof.
  destruct (update_keeps_id_and_createdAt store_claimed 20 (env_at bob 30 uid2) uid1
              policy_alice_claimed (payload_of true) store_claimed_reachable
              ltac:(simpl; lia) eq_refl (payload_of_full true)) as (_ & _ & _ & H & _).
  exact H.
Defined.

(** C5: for a payload object carrying every declared field and a fresh
    [uuidv4()] value, [createInsurancePolicy] succeeds, returns a record with
    [createdAt = ic.time()] and no [updatedAt], adds exactly one entry (under
    the new id), and [getInsurancePolicy] on the returned id then returns that
    same record. *)
Theorem create_then_get s e e' p :
  Payload.full p -> String.length (uuid e) = 36 -> s !! uuid e = None ->
  exists r,
    createInsurancePolicy e (Some p) s = (Ok r, <[uuid e := r]> s) /\
    Policy.id r = uuid e /\ Policy.createdAt r = time e /\
    Policy.updatedAt r = None /\
    size (<[uuid e := r]> s) = S (size s) /\
    getInsurancePolicy e' (Policy.id r) (<[uuid e := r]> s) = (Ok r, <[uuid e := r]> s).
Proof.
  intros Hp Hl Hfresh.
  pose proof (full_first_missing_none _ Hp) as Hm.
  destruct Hp as ([ph Hph] & [ca Hca] & [pa Hpa] & [sd Hsd] & [ed Hed] & [ic Hic]).
  unfold createInsurancePolicy. rewrite Hm, Hph, Hca, Hpa, Hsd, Hed, Hic.
  eexists. split; [reflexivity|]. simpl. repeat split.
  - by apply map_size_insert_None.
  - unfold getInsurancePolicy.
    rewrite (invalid_id_nonempty _ (uuid36_nonempty _ Hl)), lookup_insert_eq. done.
Qed.

(** Witness: the scenario payload into [store_created]. *)
Lemma create_then_get_witness :
  exists r,
    createInsurancePolicy (env_at alice 30 uid2) (Some (payload_of false)) store_created
      = (Ok r, <[uid2 := r]> store_created) /\
    Policy.id r = uid2 /\ Policy.createdAt r = 30%N /\ Policy.updatedAt r = None /\
    size (<[uid2 := r]> store_created) = S (size store_created) /\
    getInsurancePolicy (env_at bob 40 uid1) (Policy.id r) (<[uid2 := r]> store_created)
      = (Ok r, <[uid2 := r]> store_created).
Proof.
  apply (create_then_get store_created (env_at alice 30 uid2) (env_at bob 40 uid1)
           (payload_of false) (payload_of_full false) eq_refl eq_refl).
Defined.

Lemma first_missing_some (fields : list string) (p : Payload.t) f :
  first_missing fields p = Some f -> f ∈ fields /\ has_field p f = false.
Proof.
  induction fields as [|g fs IH]; simpl; [discriminate|].
  destruct (has_field p g) eqn:Hg.
  - intros H. destruct (IH H) as [? ?]. split; [by apply elem_of_cons; right|done].
  - intros [= <-]. split; [by apply elem_of_cons; left|done].
Qed.

Lemma msg_invalid_id_not_missing f : msg_invalid_id <> msg_missing f.
Proof. unfold msg_invalid_id, msg_missing. simpl. discriminate. Qed.

Lemma msg_invalid_id_not_found id : msg_invalid_id <> msg_not_found id.
Proof. unfold msg_invalid_id, msg_not_found. simpl. discriminate. Qed.

(** C6 (as stated, refuted): the empty id is absent from the empty store,
    yet [getInsurancePolicy], [updateInsurancePolicy], [deleteInsurancePolicy]
    and [fileClaim] reject it with ["Invalid ID format."], not with the
    not-found failure; [updateInsurancePolicy] on an absent non-empty id with
    a payload lacking a field reports the missing field, not the absence. *)
Lemma absent_empty_id_not_not_found :
  (∅ : Store) !! "" = None /\
  getInsurancePolicy (env_at alice 10 uid1) "" ∅ = (Err msg_invalid_id, ∅) /\
  updateInsurancePolicy (env_at alice 10 uid1) "" (Some (payload_of false)) ∅ =
    (Err msg_invalid_id, ∅) /\
  deleteInsurancePolicy (env_at alice 10 uid1) "" ∅ = (Err msg_invalid_id, ∅) /\
  fileClaim (env_at alice 10 uid1) "" ∅ = (Err msg_invalid_id, ∅) /\
  msg_invalid_id <> msg_not_found "" /\
  updateInsurancePolicy (env_at alice 10 uid1) uid2 (Some payload_partial) ∅ =
    (Err (msg_missing "premiumAmount"), ∅) /\
  msg_missing "premiumAmount" <> msg_not_found uid2.
Proof.
  repeat split; try reflexivity.
  - apply msg_invalid_id_not_found.
  - unfold msg_missing, msg_not_found. simpl. discriminate.
Qed.

(** C6 (amended): for every non-empty [id] absent from the store,
    [getInsurancePolicy], [deleteInsurancePolicy] and [fileClaim] return the
    not-found failure for [id], and so does [updateInsurancePolicy] when its
    payload carries every required field; the empty id, present or not, is
    rejected by all four with ["Invalid ID format."]; for a non-empty id,
    present or not, [updateInsurancePolicy] rejects a missing payload with
    ["Invalid payload for updating an insurance policy."] and a payload
    lacking a field with the
    missing-field failure, before looking the id up; and every failed message
    of any of the six entry points leaves the store exactly as it was. *)
Theorem absent_id_not_found_and_failures_frame e s :
  (forall id, id <> "" -> s !! id = None ->
     getInsurancePolicy e id s = (Err (msg_not_found id), s) /\
     deleteInsurancePolicy e id s = (Err (msg_not_found id), s) /\
     fileClaim e id s = (Err (msg_not_found id), s) /\
     (forall p, Payload.full p ->
        updateInsurancePolicy e id (Some p) s = (Err (msg_not_found id), s))) /\
  (getInsurancePolicy e "" s = (Err msg_invalid_id, s) /\
   deleteInsurancePolicy e "" s = (Err msg_invalid_id, s) /\
   fileClaim e "" s = (Err msg_invalid_id, s) /\
   (forall p, updateInsurancePolicy e "" p s = (Err msg_invalid_id, s))) /\
  (forall id, id <> "" ->
     updateInsurancePolicy e id None s = (Err msg_invalid_update_payload, s) /\
     (forall p f, first_missing requiredFields p = Some f ->
        updateInsurancePolicy e id (Some p) s = (Err (msg_missing f), s))) /\
  (forall c (s0 s' : Store) rep,
     run_call e c s0 = (rep, s') -> reply_failed rep = true -> s' = s0).
Proof.
  split; [|split; [|split]].
  - intros id Hne Hk.
    unfold getInsurancePolicy, deleteInsurancePolicy, fileClaim, updateInsurancePolicy.
    rewrite (invalid_id_nonempty _ Hne), Hk.
    repeat split.
    intros p Hp. by rewrite (full_first_missing_none _ Hp).
  - repeat split.
  - intros id Hne. unfold updateInsurancePolicy.
    rewrite (invalid_id_nonempty _ Hne). split; [done|].
    intros p f Hm. by rewrite Hm.
  - intros c s0 s' rep. apply run_call_failed_unchanged.
Qed.

(** Witness: [uid2] is absent from [store_claimed]. *)
Lemma absent_id_not_found_and_failures_frame_witness :
  fileClaim (env_at alice 30 uid1) uid2 store_claimed =
    (Err (msg_not_found uid2), store_claimed).
Proof.
  destruct (absent_id_not_found_and_failures_frame (env_at alice 30 uid1) store_claimed)
    as (H & _).
  destruct (H uid2 ltac:(discriminate) eq_refl) as (_ & _ & H' & _).
  exact H'.
Defined.

(** C7 (as stated, refuted): [updateInsurancePolicy] with the empty id and
    a payload lacking [premiumAmount] and [policyEndDate] fails with
    ["Invalid ID format."], which names no field. *)
Lemma update_empty_id_missing_field :
  updateInsurancePolicy (env_at alice 30 uid2) "" (Some payload_partial) store_claimed =
    (Err msg_invalid_id, store_claimed) /\
  has_field payload_partial "premiumAmount" = false /\
  forall f, msg_invalid_id <> msg_missing f.
Proof.
  split; [reflexivity|]. split; [reflexivity|]. apply msg_invalid_id_not_missing.
Qed.

(** C7 (amended): for a payload object lacking some required field, with [f]
    the first field of [requiredFields] it lacks, [createInsurancePolicy]
    fails with ["Missing required field: f."], and so does
    [updateInsurancePolicy] for every non-empty id, while for the empty id
    [updateInsurancePolicy] fails first with ["Invalid ID format."]; neither
    changes the store. *)
Theorem missing_field_rejected e s p :
  ~ Payload.full p ->
  exists f,
    first_missing requiredFields p = Some f /\
    f ∈ requiredFields /\ has_field p f = false /\
    createInsurancePolicy e (Some p) s = (Err (msg_missing f), s) /\
    (forall id, id <> "" ->
       updateInsurancePolicy e id (Some p) s = (Err (msg_missing f), s)) /\
    updateInsurancePolicy e "" (Some p) s = (Err msg_invalid_id, s).
Proof.
  intros Hp.
  destruct (first_missing requiredFields p) as [f|] eqn:Hm;
    [|by apply first_missing_none_full in Hm].
  destruct (first_missing_some _ _ _ Hm) as [Hin Hf].
  exists f. repeat split; auto.
  - unfold createInsurancePolicy. by rewrite Hm.
  - intros id Hne. unfold updateInsurancePolicy.
    by rewrite (invalid_id_nonempty _ Hne), Hm.
Qed.

Lemma payload_partial_not_full : ~ Payload.full payload_partial.
Proof. intros (_ & _ & H & _). by apply is_Some_None in H. Qed.

(** Witness: [payload_partial] lacks [premiumAmount] first. *)
Lemma missing_field_rejected_witness :
  exists f,
    first_missing requiredFields payload_partial = Some f /\
    f ∈ requiredFields /\ has_field payload_partial f = false /\
    createInsurancePolicy (env_at alice 30 uid2) (Some payload_partial) store_claimed
      = (Err (msg_missing f), store_claimed) /\
    (forall id, id <> "" ->
       updateInsurancePolicy (env_at alice 30 uid2) id (Some payload_partial) store_claimed
         = (Err (msg_missing f), store_claimed)) /\
    updateInsurancePolicy (env_at alice 30 uid2) "" (Some payload_partial) store_claimed
      = (Err msg_invalid_id, store_claimed).
Proof.
  apply (missing_field_rejected (env_at alice 30 uid2) store_claimed payload_partial
           payload_partial_not_full).
Defined.

(** C8: in a reachable store, for a present [id], [deleteInsurancePolicy]
    returns the record stored under [id] before the call and removes that
    entry; [getInsurancePolicy] on [id] then returns the not-found failure. *)
Theorem delete_then_get_not_found s t e e' id r :
  reachable s t -> s !! id = Some r ->
  deleteInsurancePolicy e id s = (Ok r, delete id s) /\
  delete id s !! id = None /\
  getInsurancePolicy e' id (delete id s) = (Err (msg_not_found id), delete id s).
Proof.
  intros Hr Hk. destruct (reachable_stored_ok _ _ Hr _ _ Hk) as (_ & Hne & _).
  unfold deleteInsurancePolicy, getInsurancePolicy.
  rewrite (invalid_id_nonempty _ Hne), Hk, lookup_delete_eq. done.
Qed.

(** Witness: deleting Alice's claimed policy. *)
Lemma delete_then_get_not_found_witness :
  deleteInsurancePolicy (env_at alice 30 uid2) uid1 store_claimed =
    (Ok policy_alice_claimed, delete uid1 store_claimed).
Proof.
  destruct (delete_then_get_not_found store_claimed 20 (env_at alice 30 uid2)
              (env_at alice 40 uid2) uid1 policy_alice_claimed
              store_claimed_reachable eq_refl) as (H & _).
  exact H.
Defined.

(** C9: two messages with the same time and the same [uuidv4()] value but
    different callers get the same reply and leave the same store from every
    entry point but [getAllInsurancePolicies]; [createInsurancePolicy] stores
    the [policyHolder] of the payload as is; and whoever the caller is,
    [deleteInsurancePolicy] succeeds on every present non-empty id,
    [fileClaim] on every such unclaimed record, and [updateInsurancePolicy]
    with every payload carrying all fields. *)
Theorem caller_not_consulted (s : Store) (e1 e2 : Env) :
  time e1 = time e2 -> uuid e1 = uuid e2 ->
  (forall c, c <> GetAllInsurancePolicies -> run_call e1 c s = run_call e2 c s) /\
  (forall p ph r s', Payload.policyHolder p = Some ph ->
     createInsurancePolicy e1 (Some p) s = (Ok r, s') -> Policy.policyHolder r = ph) /\
  (forall id r, id <> "" -> s !! id = Some r ->
     is_ok (fst (deleteInsurancePolicy e1 id s)) = true /\
     (Policy.isClaimed r = false -> is_ok (fst (fileClaim e1 id s)) = true) /\
     (forall p, Payload.full p ->
        is_ok (fst (updateInsurancePolicy e1 id (Some p) s)) = true)).
Proof.
  intros Ht Hu. split; [|split].
  - destruct e1 as [c1 t1 u1], e2 as [c2 t2 u2]; simpl in *; subst.
    intros c _. destruct c; reflexivity.
  - intros p ph r s' Hph H. unfold createInsurancePolicy in H.
    rewrite Hph in H. repeat case_match; simplify_eq; done.
  - intros id r Hne Hk.
    unfold deleteInsurancePolicy, fileClaim, updateInsurancePolicy.
    rewrite (invalid_id_nonempty _ Hne), Hk. split; [done|]. split.
    + intros ->. done.
    + intros p Hp. by rewrite (full_first_missing_none _ Hp).
Qed.

(** Witness: Alice and Bob, at the same time with the same uuid. *)
Lemma caller_not_consulted_witness :
  run_call (env_at alice 30 uid2) (DeleteInsurancePolicy uid1) store_claimed =
  run_call (env_at bob 30 uid2) (DeleteInsurancePolicy uid1) store_claimed.
Proof.
  destruct (caller_not_consulted store_claimed (env_at alice 30 uid2) (env_at bob 30 uid2)
              eq_refl eq_refl) as (H & _).
  apply H. discriminate.
Defined.

(** ** Further properties of the current version *)

Lemma persisting_entry s t e c rep s' k r r' :
  reachable s t -> env_ok s t e -> run_call e c s = (rep, s') ->
  s !! k = Some r -> s' !! k = Some r' ->
  r' = r \/ (exists pl, r' = spread_update r pl (time e)) \/
  r' = claimed_policy r (time e).
Proof.
  intros Hr (_ & _ & Hfresh) H Hk Hk'.
  pose proof (reachable_stored_ok _ _ Hr) as Hs.
  destruct c; unfold run_call in H; case_match; simplify_eq.
  - edestruct createInsurancePolicy_cases as [(?&?&?)|(pol&?&?&Hid&_&_)];
      [eassumption|..]; simplify_eq; [left; congruence|].
    apply lookup_insert_Some in Hk' as [[Heq _]|[_ Hk']]; [|left; congruence].
    rewrite Hid in Heq. subst. congruence.
  - match goal with Hg : getInsurancePolicy _ _ _ = _ |- _ =>
      apply getInsurancePolicy_cases in Hg end. subst. left. congruence.
  - match goal with Hg : getAllInsurancePolicies _ _ = _ |- _ =>
      apply getAllInsurancePolicies_cases in Hg end. subst. left. congruence.
  - edestruct updateInsurancePolicy_cases as [(?&?&?)|(pl&ex&Hne&?&?&Hex&?&?)];
      [eassumption|..]; simplify_eq; [left; congruence|].
    destruct (Hs _ _ Hex) as (Hid & _).
    apply lookup_insert_Some in Hk' as [[Heq <-]|[_ Hk']]; [|left; congruence].
    rewrite Hid in Heq. subst k. rewrite Hex in Hk. simplify_eq. eauto.
  - edestruct deleteInsurancePolicy_cases as [(?&?&?)|(ex&?&?&?&?)];
      [eassumption|..]; simplify_eq; [left; congruence|].
    apply lookup_delete_Some in Hk' as [_ Hk']. left. congruence.
  - edestruct fileClaim_cases as [(?&?&?)|(pol&Hne&Hex&?&?&?)];
      [eassumption|..]; simplify_eq; [left; congruence|].
    destruct (Hs _ _ Hex) as (Hid & _).
    apply lookup_insert_Some in Hk' as [[Heq <-]|[_ Hk']]; [|left; congruence].
    rewrite Hid in Heq. subst k. rewrite Hex in Hk. simplify_eq. eauto.
Qed.

(** [updateInsurancePolicy] on a present id with a complete payload stores
    and returns the record made of the payload's fields (a new
    [policyHolder] included), the old [id] and [createdAt], and
    [updatedAt = ic.time()]; [getInsurancePolicy] then returns it. *)
Theorem update_then_get s t e e' id r ph ca pa sd ed ic :
  reachable s t -> s !! id = Some r ->
  let r' := Policy.mk id ph ca pa sd ed ic (Policy.createdAt r) (Some (time e)) in
  updateInsurancePolicy e id
    (Some (Payload.mk (Some ph) (Some ca) (Some pa) (Some sd) (Some ed) (Some ic))) s
    = (Ok r', <[id := r']> s) /\
  getInsurancePolicy e' id (<[id := r']> s) = (Ok r', <[id := r']> s).
Proof.
  intros Hr Hk. destruct (reachable_stored_ok _ _ Hr _ _ Hk) as (Hid & Hne & _).
  unfold updateInsurancePolicy, getInsurancePolicy.
  rewrite (invalid_id_nonempty _ Hne), Hk, lookup_insert_eq. simpl.
  unfold spread_update. simpl. rewrite Hid. done.
Qed.

Lemma update_then_get_witness :
  getInsurancePolicy (env_at alice 40 uid2) uid1
    (<[uid1 := Policy.mk uid1 bob 1 2 3 4 false 10 (Some 30%N)]> store_claimed)
  = (Ok (Policy.mk uid1 bob 1 2 3 4 false 10 (Some 30%N)),
     <[uid1 := Policy.mk uid1 bob 1 2 3 4 false 10 (Some 30%N)]> store_claimed).
Proof.
  apply (update_then_get store_claimed 20 (env_at alice 30 uid2) (env_at alice 40 uid2)
           uid1 policy_alice_claimed bob 1 2 3 4 false store_claimed_reachable eq_refl).
Defined.

Lemma call_key_frame s t e c rep s' k :
  reachable s t -> env_ok s t e -> run_call e c s = (rep, s') ->
  call_key e c <> Some k -> s' !! k = s !! k.
Proof.
  intros Hr _ H Hkey. pose proof (reachable_stored_ok _ _ Hr) as Hs.
  destruct c; unfold run_call in H; case_match; simplify_eq; simpl in Hkey.
  - edestruct createInsurancePolicy_cases as [(?&?&?)|(pol&?&?&Hid&_&_)];
      [eassumption|..]; simplify_eq; [done|].
    rewrite lookup_insert_ne; [done|]. rewrite Hid. congruence.
  - match goal with Hg : getInsurancePolicy _ _ _ = _ |- _ =>
      apply getInsurancePolicy_cases in Hg end. by subst.
  - match goal with Hg : getAllInsurancePolicies _ _ = _ |- _ =>
      apply getAllInsurancePolicies_cases in Hg end. by subst.
  - edestruct updateInsurancePolicy_cases as [(?&?&?)|(pl&ex&Hne&?&?&Hex&?&?)];
      [eassumption|..]; simplify_eq; [done|].
    destruct (Hs _ _ Hex) as (Hid & _).
    rewrite lookup_insert_ne; [done|]. simpl. rewrite Hid. congruence.
  - edestruct deleteInsurancePolicy_cases as [(?&?&?)|(ex&?&?&?&?)];
      [eassumption|..]; simplify_eq; [done|].
    rewrite lookup_delete_ne; [done|]. congruence.
  - edestruct fileClaim_cases as [(?&?&?)|(pol&Hne&Hex&?&?&?)];
      [eassumption|..]; simplify_eq; [done|].
    destruct (Hs _ _ Hex) as (Hid & _).
    rewrite lookup_insert_ne; [done|]. simpl. rewrite Hid. congruence.
Qed.

(** A message writes at most the entry of [call_key]: in a reachable store
    every other entry keeps its record. *)
Theorem message_frame s t e c rep s' k :
  reachable s t -> env_ok s t e -> run_call e c s = (rep, s') ->
  call_key e c <> Some k -> s' !! k = s !! k.
Proof. apply call_key_frame. Qed.

Lemma message_frame_witness :
  store_created !! uid2 = None /\
  snd (run_call (env_at alice 20 uid2) (FileClaim uid1) store_created) !! uid2
    = store_created !! uid2.
Proof.
  split; [reflexivity|].
  apply (message_frame store_created 10 (env_at alice 20 uid2) (FileClaim uid1)
           (fst (run_call (env_at alice 20 uid2) (FileClaim uid1) store_created))
           (snd (run_call (env_at alice 20 uid2) (FileClaim uid1) store_created)) uid2
           store_created_reachable).
  - split; [simpl; lia|]. split; reflexivity.
  - apply surjective_pairing.
  - discriminate.
Defined.

(** A record that stays in the store across a message keeps its [id] and
    its [createdAt]. *)
Theorem id_createdAt_immutable s t e c rep s' k r r' :
  reachable s t -> env_ok s t e -> run_call e c s = (rep, s') ->
  s !! k = Some r -> s' !! k = Some r' ->
  Policy.id r' = Policy.id r /\ Policy.createdAt r' = Policy.createdAt r.
Proof.
  intros Hr He H Hk Hk'.
  destruct (persisting_entry _ _ _ _ _ _ _ _ _ Hr He H Hk Hk') as [->|[[pl ->]| ->]];
    done.
Qed.

Lemma id_createdAt_immutable_witness :
  Policy.createdAt policy_alice_claimed = 10%N.
Proof.
  destruct (id_createdAt_immutable store_created 10 (env_at alice 20 uid2) (FileClaim uid1)
              (fst (run_call (env_at alice 20 uid2) (FileClaim uid1) store_created))
              store_claimed uid1
              (Policy.mk uid1 alice 100000 500 1000 2000 false 10 None)
              policy_alice_claimed store_created_reachable) as (_ & H).
  - split; [simpl; lia|]. split; reflexivity.
  - reflexivity.
  - reflexivity.
  - reflexivity.
  - exact H.
Defined.

(** A record that stays in the store across a message never loses its
    [updatedAt] and never gets an earlier one. *)
Theorem updatedAt_monotone s t e c rep s' k r r' u :
  reachable s t -> env_ok s t e -> run_call e c s = (rep, s') ->
  s !! k = Some r -> s' !! k = Some r' -> Policy.updatedAt r = Some u ->
  exists u', Policy.updatedAt r' = Some u' /\ (u <= u')%N.
Proof.
  intros Hr He H Hk Hk' Hu.
  destruct (reachable_stored_ok _ _ Hr _ _ Hk) as (_ & _ & _ & Hle).
  specialize (Hle u Hu). pose proof He as (Ht & _).
  destruct (persisting_entry _ _ _ _ _ _ _ _ _ Hr He H Hk Hk')
    as [->|[[pl ->]| ->]].
  - exists u. split; [done | lia].
  - exists (time e). split; [done | lia].
  - exists (time e). split; [done | lia].
Qed.

Lemma updatedAt_monotone_witness :
  exists u', Policy.updatedAt (spread_update policy_alice_claimed (payload_of false) 30)
               = Some u' /\ (20 <= u')%N.
Proof.
  apply (updatedAt_monotone store_claimed 20 (env_at bob 30 uid2)
           (UpdateInsurancePolicy uid1 (Some (payload_of false)))
           (ReplyPolicy (Ok (spread_update policy_alice_claimed (payload_of false) 30)))
           (<[uid1 := spread_update policy_alice_claimed (payload_of false) 30]> store_claimed)
           uid1 policy_alice_claimed (spread_update policy_alice_claimed (payload_of false) 30)
           20 store_claimed_reachable).
  - split; [simpl; lia|]. split; reflexivity.
  - reflexivity.
  - reflexivity.
  - reflexivity.
  - reflexivity.
Defined.

(** Where an entry after a message comes from: it was there before, or it
    is the record [createInsurancePolicy] just made under the fresh id. *)
Lemma entry_origin s t e c rep s' k r' :
  reachable s t -> env_ok s t e -> run_call e c s = (rep, s') -> s' !! k = Some r' ->
  (exists r, s !! k = Some r /\
     (r' = r \/ (exists pl, r' = spread_update r pl (time e)) \/
      r' = claimed_policy r (time e))) \/
  (k = uuid e /\ s !! k = None /\ Policy.createdAt r' = time e /\
   Policy.updatedAt r' = None).
Proof.
  intros Hr He H Hk'.
  destruct (s !! k) as [r|] eqn:Hk.
  { left. exists r. split; [done|]. eapply persisting_entry; eauto. }
  right.
  assert (Hkey : call_key e c = Some k).
  { destruct (decide (call_key e c = Some k)) as [|Hne]; [done|].
    rewrite (call_key_frame _ _ _ _ _ _ _ Hr He H Hne) in Hk'. congruence. }
  destruct c; unfold run_call in H; case_match; simplify_eq; simpl in Hkey;
    simplify_eq.
  - edestruct createInsurancePolicy_cases as [(?&?&?)|(pol&?&?&Hid&Hc&Hn)];
      [eassumption|..]; simplify_eq; try congruence;
      rewrite Hid, lookup_insert_eq in Hk'; simplify_eq; done.
  - edestruct updateInsurancePolicy_cases as [(?&?&?)|(pl&ex&Hne&?&?&Hex&?&?)];
      [eassumption|..]; simplify_eq; congruence.
  - edestruct deleteInsurancePolicy_cases as [(?&?&?)|(ex&?&?&?&?)];
      [eassumption|..]; simplify_eq; try congruence;
      by rewrite lookup_delete_eq in Hk'.
  - edestruct fileClaim_cases as [(?&?&?)|(pol&Hne&Hex&?&?&?)];
      [eassumption|..]; simplify_eq; congruence.
Qed.

(** In every reachable store a record's [createdAt] is not later than its
    [updatedAt]. *)
Theorem created_before_updated s t :
  reachable s t ->
  forall k r u, s !! k = Some r -> Policy.updatedAt r = Some u ->
  (Policy.createdAt r <= u)%N.
Proof.
  induction 1 as [t|s t e c rep s' Hr IH He Hrun]; intros k r' u Hk' Hu.
  - by rewrite lookup_empty in Hk'.
  - pose proof He as (Ht & _).
    destruct (entry_origin _ _ _ _ _ _ _ _ Hr He Hrun Hk')
      as [(r & Hk & [->|[[pl ->]| ->]])|(_ & _ & _ & Hn)].
    + eauto.
    + destruct (reachable_stored_ok _ _ Hr _ _ Hk) as (_ & _ & Hc & _).
      simpl in *. simplify_eq. lia.
    + destruct (reachable_stored_ok _ _ Hr _ _ Hk) as (_ & _ & Hc & _).
      simpl in *. simplify_eq. lia.
    + congruence.
Qed.

Lemma created_before_updated_witness :
  (Policy.createdAt policy_alice_claimed <= 20)%N.
Proof.
  apply (created_before_updated store_claimed 20 store_claimed_reachable uid1);
    reflexivity.
Defined.

(** Every key of a reachable store is a 36-character [uuidv4()] value. *)
Theorem keys_are_uuids s t :
  reachable s t -> forall k r, s !! k = Some r -> String.length k = 36.
Proof.
  induction 1 as [t|s t e c rep s' Hr IH He Hrun]; intros k r' Hk'.
  - by rewrite lookup_empty in Hk'.
  - pose proof He as (_ & Hl & _).
    destruct (entry_origin _ _ _ _ _ _ _ _ Hr He Hrun Hk')
      as [(r & Hk & _)|(-> & _)]; eauto.
Qed.

Lemma keys_are_uuids_witness : String.length uid1 = 36.
Proof.
  apply (keys_are_uuids store_claimed 20 store_claimed_reachable uid1 policy_alice_claimed).
  reflexivity.
Defined.

(** How a message changes the number of stored policies: a successful
    [createInsurancePolicy] adds one, a successful [deleteInsurancePolicy]
    removes one, and every other message, and every failure, keeps it. *)
Theorem store_size_effect s t e c rep s' :
  reachable s t -> env_ok s t e -> run_call e c s = (rep, s') ->
  size s' = if reply_failed rep then size s
            else match c with
                 | CreateInsurancePolicy _ => S (size s)
                 | DeleteInsurancePolicy _ => pred (size s)
                 | _ => size s
                 end.
Proof.
  intros Hr (_ & _ & Hfresh) H. pose proof (reachable_stored_ok _ _ Hr) as Hs.
  destruct (reply_failed rep) eqn:Hf.
  { by rewrite (run_call_failed_unchanged _ _ _ _ _ H Hf). }
  destruct c; unfold run_call in H; case_match; simplify_eq.
  - edestruct createInsurancePolicy_cases as [(?&?&?)|(pol&?&?&Hid&_&_)];
      [eassumption|..]; simplify_eq/=; try done.
    rewrite Hid. by apply map_size_insert_None.
  - match goal with Hg : getInsurancePolicy _ _ _ = _ |- _ =>
      apply getInsurancePolicy_cases in Hg end. by subst.
  - match goal with Hg : getAllInsurancePolicies _ _ = _ |- _ =>
      apply getAllInsurancePolicies_cases in Hg end. by subst.
  - edestruct updateInsurancePolicy_cases as [(?&?&?)|(pl&ex&Hne&?&?&Hex&?&?)];
      [eassumption|..]; simplify_eq/=; try done.
    destruct (Hs _ _ Hex) as (Hid & _).
    apply map_size_insert_Some. rewrite Hid, Hex. by eexists.
  - edestruct deleteInsurancePolicy_cases as [(?&?&?)|(ex&?&?&?&?)];
      [eassumption|..]; simplify_eq/=; try done.
    apply map_size_delete_Some. by eexists.
  - edestruct fileClaim_cases as [(?&?&?)|(pol&Hne&Hex&?&?&?)];
      [eassumption|..]; simplify_eq/=; try done.
    destruct (Hs _ _ Hex) as (Hid & _).
    apply map_size_insert_Some. simpl. rewrite Hid, Hex. by eexists.
Qed.

Lemma store_size_effect_witness :
  size (snd (run_call (env_at alice 20 uid2) (DeleteInsurancePolicy uid1) store_created)) = 0.
Proof.
  rewrite (store_size_effect store_created 10 (env_at alice 20 uid2) (DeleteInsurancePolicy uid1)
             (fst (run_call (env_at alice 20 uid2) (DeleteInsurancePolicy uid1) store_created))
             (snd (run_call (env_at alice 20 uid2) (DeleteInsurancePolicy uid1) store_created))
             store_created_reachable).
  - reflexivity.
  - split; [simpl; lia|]. split; reflexivity.
  - apply surjective_pairing.
Defined.

(** After [deleteInsurancePolicy] removed a policy, every later
    [getInsurancePolicy], [deleteInsurancePolicy] and [fileClaim] on its id,
    and every [updateInsurancePolicy] with a complete payload, fails with the
    not-found message and leaves the store as it is. *)
Theorem after_delete_not_found s t e' id r :
  reachable s t -> s !! id = Some r ->
  getInsurancePolicy e' id (delete id s) = (Err (msg_not_found id), delete id s) /\
  deleteInsurancePolicy e' id (delete id s) = (Err (msg_not_found id), delete id s) /\
  fileClaim e' id (delete id s) = (Err (msg_not_found id), delete id s) /\
  (forall p, Payload.full p ->
     updateInsurancePolicy e' id (Some p) (delete id s) =
       (Err (msg_not_found id), delete id s)).
Proof.
  intros Hr Hk. destruct (reachable_stored_ok _ _ Hr _ _ Hk) as (_ & Hne & _).
  unfold getInsurancePolicy, deleteInsurancePolicy, fileClaim, updateInsurancePolicy.
  rewrite (invalid_id_nonempty _ Hne), lookup_delete_eq. repeat split.
  intros p Hp. by rewrite (full_first_missing_none _ Hp).
Qed.

Lemma after_delete_not_found_witness :
  fileClaim (env_at alice 30 uid2) uid1 (delete uid1 store_claimed) =
    (Err (msg_not_found uid1), delete uid1 store_claimed).
Proof.
  destruct (after_delete_not_found store_claimed 20 (env_at alice 30 uid2) uid1
              policy_alice_claimed store_claimed_reachable eq_refl) as (_ & _ & H & _).
  exact H.
Defined.

(** [createInsurancePolicy] never checks that the [uuidv4()] value is new:
    when a policy is already stored under it, that policy is replaced by the
    new record and the number of stored policies stays the same. *)
Theorem create_overwrites_on_uuid_collision s e p old :
  Payload.full p -> s !! uuid e = Some old ->
  exists r,
    createInsurancePolicy e (Some p) s = (Ok r, <[uuid e := r]> s) /\
    (<[uuid e := r]> s) !! uuid e = Some r /\
    Policy.createdAt r = time e /\ Policy.updatedAt r = None /\
    size (<[uuid e := r]> s) = size s.
Proof.
  intros Hp Hold.
  pose proof (full_first_missing_none _ Hp) as Hm.
  destruct Hp as ([ph Hph] & [ca Hca] & [pa Hpa] & [sd Hsd] & [ed Hed] & [ic Hic]).
  unfold createInsurancePolicy. rewrite Hm, Hph, Hca, Hpa, Hsd, Hed, Hic.
  eexists. split; [reflexivity|]. simpl. repeat split.
  - by rewrite lookup_insert_eq.
  - apply map_size_insert_Some. rewrite Hold. by eexists.
Qed.

Lemma create_overwrites_on_uuid_collision_witness :
  exists r,
    createInsurancePolicy (env_at bob 30 uid1) (Some (payload_of false)) store_claimed
      = (Ok r, <[uid1 := r]> store_claimed) /\
    (<[uid1 := r]> store_claimed) !! uid1 = Some r /\
    Policy.createdAt r = 30%N /\ Policy.updatedAt r = None /\
    size (<[uid1 := r]> store_claimed) = size store_claimed.
Proof.
  apply (create_overwrites_on_uuid_collision store_claimed (env_at bob 30 uid1)
           (payload_of false) policy_alice_claimed (payload_of_full false) eq_refl).
Defined.

(** ** The earlier version against the current one *)

Lemma deserialize_values_fresh (q : Principal) (n : positive) (l : list Policy.t) :
  (principal_ref q < n)%positive ->
  filter (fun policy => principal_strict_eq (Policy.policyHolder policy) q = true)
         (Legacy.deserialize_values n l) = [].
Proof.
  revert n. induction l as [|r l IH]; intros n Hn; [done|].
  simpl. rewrite filter_cons_False.
  - apply IH. lia.
  - unfold principal_strict_eq. simpl. intros Heq. apply Pos.eqb_eq in Heq. lia.
Qed.

(** In the earlier version, [getAllInsurancePolicies] always succeeds with
    the empty list and leaves the store unchanged, for every caller, every
    store and whatever references the message's objects get: the caller
    object and each decoded [policyHolder] are distinct objects, and [===]
    on distinct objects is [false], so the filter keeps no record. *)
Theorem legacy_getAll_always_empty :
  (forall next e s, Legacy.getAllInsurancePolicies_at next e s = (Ok [], s)) /\
  (forall e s, Legacy.getAllInsurancePolicies e s = (Ok [], s)).
Proof.
  split; [intros next e s|intros e s];
    unfold Legacy.getAllInsurancePolicies, Legacy.getAllInsurancePolicies_at;
    do 2 f_equal; apply deserialize_values_fresh; simpl; lia.
Qed.

Lemma legacy_agrees e s id lp :
  id <> "" ->
  getInsurancePolicy e id s = Legacy.getInsurancePolicy e id s /\
  deleteInsurancePolicy e id s = Legacy.deleteInsurancePolicy e id s /\
  fileClaim e id s = Legacy.fileClaim e id s /\
  updateInsurancePolicy e id (Some (Legacy.as_object lp)) s =
    Legacy.updateInsurancePolicy e id lp s.
Proof.
  intros Hne.
  unfold getInsurancePolicy, deleteInsurancePolicy, fileClaim, updateInsurancePolicy,
    Legacy.getInsurancePolicy, Legacy.deleteInsurancePolicy, Legacy.fileClaim,
    Legacy.updateInsurancePolicy.
  rewrite (invalid_id_nonempty _ Hne).
  destruct (s !! id) as [r|]; [|done].
  repeat split. by destruct (Policy.isClaimed r).
Qed.

Lemma legacy_create_agrees e s lp :
  createInsurancePolicy e (Some (Legacy.as_object lp)) s =
  Legacy.createInsurancePolicy e lp s.
Proof. reflexivity. Qed.

(** The validation added to the current version changes nothing for
    well-formed input: on a non-empty id and a complete payload each
    entry point but [getAllInsurancePolicies] replies and updates the store
    exactly as the earlier version does. *)
Theorem current_agrees_with_legacy e s id lp :
  id <> "" ->
  createInsurancePolicy e (Some (Legacy.as_object lp)) s =
    Legacy.createInsurancePolicy e lp s /\
  getInsurancePolicy e id s = Legacy.getInsurancePolicy e id s /\
  updateInsurancePolicy e id (Some (Legacy.as_object lp)) s =
    Legacy.updateInsurancePolicy e id lp s /\
  deleteInsurancePolicy e id s = Legacy.deleteInsurancePolicy e id s /\
  fileClaim e id s = Legacy.fileClaim e id s.
Proof.
  intros Hne. destruct (legacy_agrees e s id lp Hne) as (? & ? & ? & ?).
  rewrite legacy_create_agrees. auto.
Qed.

Lemma current_agrees_with_legacy_witness :
  fileClaim (env_at alice 20 uid2) uid1 store_created =
  Legacy.fileClaim (env_at alice 20 uid2) uid1 store_created.
Proof.
  destruct (current_agrees_with_legacy (env_at alice 20 uid2) store_created uid1
              (legacy_payload_of false) ltac:(discriminate)) as (_ & _ & _ & _ & H).
  exact H.
Defined.

Lemma legacy_as_current_call t s e c rep s' :
  stored_ok t s -> Legacy.run_call e c s = (rep, s') ->
  exists c' rep', run_call e c' s = (rep', s').
Proof.
  intros Hs H.
  assert (Hro : s' = s -> exists c' rep', run_call e c' s = (rep', s')).
  { intros ->. exists GetAllInsurancePolicies. eexists. reflexivity. }
  assert (Hempty : s !! "" = None).
  { destruct (s !! "") as [r|] eqn:Hk; [|done]. by destruct (Hs _ _ Hk) as (_ & ? & _). }
  destruct c as [lp|id| |id lp|id|id]; unfold Legacy.run_call in H.
  - exists (CreateInsurancePolicy (Some (Legacy.as_object lp))).
    unfold run_call. rewrite legacy_create_agrees. eexists. rewrite H. reflexivity.
  - apply Hro. unfold Legacy.getInsurancePolicy in H. repeat case_match; by simplify_eq.
  - apply Hro. unfold Legacy.getAllInsurancePolicies in H. simpl in H. by simplify_eq.
  - destruct (decide (id = "")) as [->|Hne].
    + apply Hro. unfold Legacy.updateInsurancePolicy in H. rewrite Hempty in H. by simplify_eq.
    + exists (UpdateInsurancePolicy id (Some (Legacy.as_object lp))).
      destruct (legacy_agrees e s id lp Hne) as (_ & _ & _ & Hu).
      unfold run_call. rewrite Hu. eexists. rewrite H. reflexivity.
  - destruct (decide (id = "")) as [->|Hne].
    + apply Hro. unfold Legacy.deleteInsurancePolicy in H. rewrite Hempty in H. by simplify_eq.
    + exists (DeleteInsurancePolicy id).
      destruct (legacy_agrees e s id (legacy_payload_of false) Hne) as (_ & Hd & _ & _).
      unfold run_call. rewrite Hd. eexists. rewrite H. reflexivity.
  - destruct (decide (id = "")) as [->|Hne].
    + apply Hro. unfold Legacy.fileClaim in H. rewrite Hempty in H. by simplify_eq.
    + exists (FileClaim id).
      destruct (legacy_agrees e s id (legacy_payload_of false) Hne) as (_ & _ & Hf & _).
      unfold run_call. rewrite Hf. eexists. rewrite H. reflexivity.
Qed.

(** Every message of the earlier version keeps the store invariant of the
    current one (each record under its own non-empty id, timestamps no later
    than the message), given the same host contract on [ic.time()] and
    [uuidv4()]: a store the earlier version wrote satisfies it. *)
Theorem legacy_keeps_store_invariant t s e c rep s' :
  stored_ok t s -> (t <= time e)%N -> uuid e <> "" ->
  Legacy.run_call e c s = (rep, s') -> stored_ok (time e) s'.
Proof.
  intros Hs Ht Hu H.
  destruct (legacy_as_current_call _ _ _ _ _ _ Hs H) as (c' & rep' & H').
  eapply stored_ok_step; eauto.
Qed.

Lemma legacy_keeps_store_invariant_witness :
  stored_ok 10 (snd (Legacy.run_call (env_at alice 10 uid1)
                       (Legacy.CreateInsurancePolicy (legacy_payload_of false)) ∅)).
Proof.
  apply (legacy_keeps_store_invariant 0 ∅ (env_at alice 10 uid1)
           (Legacy.CreateInsurancePolicy (legacy_payload_of false))
           (fst (Legacy.run_call (env_at alice 10 uid1)
                   (Legacy.CreateInsurancePolicy (legacy_payload_of false)) ∅))).
  - intros k r Hk. by rewrite lookup_empty in Hk.
  - simpl; lia.
  - discriminate.
  - apply surjective_pairing.
Defined.
